(** * Universal Hello World Compiler: the dispatch script [src/index.ts]

    The script reads the file named by the second-to-last entry of
    [process.argv], discards what it read, interpolates the last entry into
    the command line [cargo run -r --target <target>], hands that line to
    [child_process.exec] and, in the callback, prints the captured streams,
    the error object and the line [Done!].

    The development has three layers:
    - [Js]: the few JavaScript values and operators the script uses;
    - [Node]: the calls the script makes to the Node runtime, as a syntax
      tree of effects ([prog]) with an interpreter over an explicit [world]
      (file system, process table, outcome of each child process);
    - [Sh]: the fragment of the POSIX shell command language needed to say
      what [/bin/sh -c <line>] does with the line [exec] gives it.
    [Index] is the script itself, statement by statement.  [Rpn] is the
    Rust program the README gives as a sample input: a calculator in
    reverse Polish notation. *)

From Stdlib Require Import ZArith NArith List String Ascii Bool Lia.
From Stdlib.Strings Require Import Byte.
Import ListNotations.
Local Open Scope string_scope.
Local Open Scope Z_scope.

Set Implicit Arguments.

(* ------------------------------------------------------------------ *)
(** ** JavaScript values *)

Module Js.

(** The values that flow through the script: entries of [process.argv] are
    strings, and reading an array out of range yields [undefined]. *)
Inductive value : Type :=
| Undefined
| Str (s : string).

(** [a.length]. *)
Definition length (a : list string) : Z := Z.of_nat (List.length a).

(** [a[i]] for an array of strings: an index that names no element
    (negative, or at or past the length) yields [undefined]. *)
Definition index (a : list string) (i : Z) : value :=
  if i <? 0 then Undefined
  else match nth_error a (Z.to_nat i) with
       | Some s => Str s
       | None => Undefined
       end.

(** [`${v}`]: the string conversion a template literal applies. *)
Definition to_string (v : value) : string :=
  match v with
  | Undefined => "undefined"
  | Str s => s
  end.

(** Truthiness of a string, as tested by [if (s)]: only the empty string
    is falsy. *)
Definition truthy (s : string) : bool :=
  match s with
  | EmptyString => false
  | String _ _ => true
  end.

End Js.

(* ------------------------------------------------------------------ *)
(** ** The Node runtime as seen by the script *)

Module Node.

(** The [encoding] argument of [fs.readFileSync]. *)
Inductive encoding : Type := Utf8.

(** What a path names in the file system. *)
Inductive fs_node : Type :=
| Absent                              (* nothing at that path *)
| Directory                           (* a directory *)
| Unreadable                          (* exists, permission denied *)
| File (data : list byte).            (* a readable regular file *)

Inductive errno : Type := ENOENT | EISDIR | EACCES.

(** The errors for which starting a process throws at once.  (Those of
    the other kind, [ENOENT] or [EACCES] for instance, are not thrown:
    they reach the callback of [exec] as its [error].) *)
Inductive spawn_errno : Type := E2BIG | ENOMEM.

(** Exceptions the script can raise.  [fs.readFileSync] throws a system
    error when the read fails and a [TypeError] when the path argument is
    not a string; [child_process.exec] throws when the host refuses to
    start the process. *)
Inductive exception : Type :=
| FsError (code : errno) (path : string)
| InvalidArgType
| SpawnError (code : spawn_errno).

(** The [error] argument of the [exec] callback when it is not [null]. *)
Inductive exec_error : Type :=
| LaunchFailed (code : string)        (* the child could not be started *)
| ExitStatus (code : Z)               (* the child exited with code <> 0 *)
| Killed (signal : string).           (* the child was ended by a signal *)

(** What [exec] hands to its callback once the child has terminated. *)
Record exec_result : Type := {
  res_error : option exec_error;
  res_stdout : string;
  res_stderr : string
}.

(** The process image the runtime starts: a program file and its
    argument vector. *)
Record process_image : Type := {
  file : string;
  args : list string
}.

(** [child_process.exec(command)] does not start [command] itself: on a
    POSIX host it starts [/bin/sh] and gives it the whole line as the
    operand of [-c].  The checks [exec] makes on its argument (a string,
    without NUL) always pass here: the line is a template literal over
    entries of the argument vector of the process. *)
Definition shell_image (command : string) : process_image :=
  {| file := "/bin/sh"; args := ["-c"; command] |}.

(** The length of a string in bytes. *)
Fixpoint strlen_from (s : string) (acc : N) : N :=
  match s with
  | EmptyString => acc
  | String _ s' => strlen_from s' (N.succ acc)
  end.

Definition strlen (s : string) : N := strlen_from s 0.

(** Linux refuses an argument vector one string of which, with its final
    NUL, is longer than [MAX_ARG_STRLEN]: [execve] fails with [E2BIG]. *)
Definition MAX_ARG_STRLEN : N := 131072.

Definition linux_exec_fault (img : process_image) : option spawn_errno :=
  if existsb (fun a => (MAX_ARG_STRLEN <? strlen a + 1)%N)
             (file img :: args img)
  then Some E2BIG
  else None.

(** Values passed to [console.log] / [console.error]. *)
Inductive console_arg : Type :=
| Text (s : string)
| ErrorObject (e : exec_error).

Inductive stream : Type := StdoutStream | StderrStream.

(** Observable effects of one run, in the order they happen. *)
Inductive event : Type :=
| FsRead (path : string)
| Spawn (pid : nat) (img : process_image)
| Write (to : stream) (v : console_arg).

(** The world a run executes in.  [procs] is the table of every child
    process started so far (the next pid is its length); [outcome pid] is
    what the child with that pid reports when it terminates;
    [exec_fault img] is the error, if any, with which the host refuses
    to start [img]. *)
Record world : Type := {
  files : string -> fs_node;
  decode : encoding -> list byte -> string;
  procs : list process_image;
  outcome : nat -> exec_result;
  exec_fault : process_image -> option spawn_errno
}.

Definition spawn (img : process_image) (w : world) : world :=
  {| files := files w;
     decode := decode w;
     procs := procs w ++ [img];
     outcome := outcome w;
     exec_fault := exec_fault w |}.

(** The calls the script makes, as a tree.  [Exec] takes the callback that
    the event loop runs when the child has terminated, and the rest of
    the synchronous script. *)
Inductive prog : Type :=
| Return
| ReadFileSync (path : Js.value) (enc : encoding) (k : string -> prog)
| Exec (command : string)
       (callback : option exec_error -> string -> string -> prog)
       (k : prog)
| ConsoleError (v : console_arg) (k : prog)
| ConsoleLog (v : console_arg) (k : prog).

(** How a run ends: the event loop drains and the process exits normally,
    or an exception reaches the top level.  The message the runtime
    prints for an uncaught exception is not among the events: those are
    the calls the script makes. *)
Inductive completion : Type :=
| Completed
| Uncaught (e : exception).

(** The process exit status: [0] on a normal exit, [1] for an uncaught
    exception. *)
Definition exit_code (c : completion) : Z :=
  match c with
  | Completed => 0
  | Uncaught _ => 1
  end.

Record run_result : Type := {
  trace : list event;
  result : completion;
  final : world
}.

(** [fs.readFileSync(path, enc)] on its own: the argument check comes
    first and touches nothing; otherwise the path is opened and read
    once. *)
Definition readFileSync (w : world) (path : Js.value) (enc : encoding)
  : list event * (exception + string) :=
  match path with
  | Js.Undefined => ([], inl InvalidArgType)
  | Js.Str p =>
      ([FsRead p],
       match files w p with
       | File data => inr (decode w enc data)
       | Absent => inl (FsError ENOENT p)
       | Directory => inl (FsError EISDIR p)
       | Unreadable => inl (FsError EACCES p)
       end)
  end.

(** The interpreter.  A synchronous exception ends the run at once.
    [Exec] throws when the host refuses to start the shell; otherwise it
    starts the shell, lets the rest of the script run, and then, the
    child having terminated, runs the callback on its result. *)
Fixpoint interp (p : prog) (w : world) : run_result :=
  match p with
  | Return => {| trace := []; result := Completed; final := w |}
  | ReadFileSync path enc k =>
      match readFileSync w path enc with
      | (evs, inl e) => {| trace := evs; result := Uncaught e; final := w |}
      | (evs, inr text) =>
          let r := interp (k text) w in
          {| trace := evs ++ trace r; result := result r; final := final r |}
      end
  | Exec command callback k =>
      let pid := List.length (procs w) in
      let img := shell_image command in
      match exec_fault w img with
      | Some code =>
          {| trace := []; result := Uncaught (SpawnError code); final := w |}
      | None =>
          let r1 := interp k (spawn img w) in
          match result r1 with
          | Uncaught _ =>
              {| trace := Spawn pid img :: trace r1;
                 result := result r1; final := final r1 |}
          | Completed =>
              let o := outcome w pid in
              let r2 :=
                interp (callback (res_error o) (res_stdout o) (res_stderr o))
                       (final r1) in
              {| trace := Spawn pid img :: trace r1 ++ trace r2;
                 result := result r2; final := final r2 |}
          end
      end
  | ConsoleError v k =>
      let r := interp k w in
      {| trace := Write StderrStream v :: trace r;
         result := result r; final := final r |}
  | ConsoleLog v k =>
      let r := interp k w in
      {| trace := Write StdoutStream v :: trace r;
         result := result r; final := final r |}
  end.

(** Sequencing of statements written in continuation style. *)
Definition when (b : bool) (stmt : prog -> prog) (k : prog) : prog :=
  if b then stmt k else k.

Definition when_not_null (A : Type) (o : option A)
  (stmt : A -> prog -> prog) (k : prog) : prog :=
  match o with
  | Some a => stmt a k
  | None => k
  end.


Definition is_fs_read (e : event) : bool :=
  match e with FsRead _ => true | _ => false end.

Definition spawned (t : list event) : list process_image :=
  flat_map (fun e => match e with Spawn _ img => [img] | _ => [] end) t.

Definition written (to : stream) (t : list event) : list console_arg :=
  flat_map (fun e =>
    match e, to with
    | Write StdoutStream v, StdoutStream => [v]
    | Write StderrStream v, StderrStream => [v]
    | _, _ => []
    end) t.

(** The console calls of a trace, in order, each with its stream. *)
Definition console (t : list event) : list (stream * console_arg) :=
  flat_map (fun e => match e with Write to v => [(to, v)] | _ => [] end) t.

End Node.

(* ------------------------------------------------------------------ *)
(** ** A fragment of the shell command language

    [exec] runs [/bin/sh -c line].  This module reads a line the way the
    shell does, for lines made of plain characters, blanks and [;] only:
    blanks separate words, [;] separates commands, and each command is
    started with its words as argument vector.  A line with any other
    character (quotes, [$], [|], [&], redirections, globs, newlines, ...),
    with an empty command before a [;], or with a command whose name is
    a reserved word or a builtin of the shell ([exit], [exec], [cd], ...,
    which the shell runs itself and which may end or replace it), is
    outside the fragment: [parse] answers [None], which says nothing of
    what the shell does. *)

Module Sh.

Definition is_blank (c : ascii) : bool :=
  (c =? " ")%char || (c =? "009")%char.

Definition is_semi (c : ascii) : bool := (c =? ";")%char.

(** Characters that stand for themselves in a word wherever they occur:
    letters, digits and [_ - . / , : + @]. *)
Definition is_plain (c : ascii) : bool :=
  let n := nat_of_ascii c in
  ((48 <=? n) && (n <=? 57) || (65 <=? n) && (n <=? 90)
   || (97 <=? n) && (n <=? 122))%nat
  || (c =? "_")%char || (c =? "-")%char || (c =? ".")%char
  || (c =? "/")%char || (c =? ",")%char || (c =? ":")%char
  || (c =? "+")%char || (c =? "@")%char.

Inductive token : Type :=
| Word (w : string)
| Semi.

(** Close the word being read, if any. *)
Definition flush (cur : string) (rest : list token) : list token :=
  match cur with
  | EmptyString => rest
  | _ => Word cur :: rest
  end.

(** Token recognition; [cur] is the word read so far. *)
Fixpoint lex (s : string) (cur : string) : option (list token) :=
  match s with
  | EmptyString => Some (flush cur [])
  | String c s' =>
      if is_plain c then lex s' (cur ++ String c EmptyString)
      else if is_blank c then option_map (flush cur) (lex s' EmptyString)
      else if is_semi c then
        option_map (fun r => flush cur (Semi :: r)) (lex s' EmptyString)
      else None
  end.

(** Grouping of the tokens into commands; [cur] holds the words of the
    command being read.  A [;] with no command before it is a syntax
    error; a [;] after the last command is allowed. *)
Fixpoint group (ts : list token) (cur : list string)
  : option (list (list string)) :=
  match ts with
  | [] => Some (match cur with [] => [] | _ => [cur] end)
  | Word w :: ts' => group ts' (cur ++ [w])
  | Semi :: ts' =>
      match cur with
      | [] => None
      | _ => option_map (cons cur) (group ts' [])
      end
  end.

Definition reserved_words : list string :=
  ["case"; "do"; "done"; "elif"; "else"; "esac"; "fi"; "for"; "if"; "in";
   "then"; "until"; "while"].

Definition is_reserved (w : string) : bool :=
  existsb (String.eqb w) reserved_words.

(** Names the shell does not look up as programs: the special and the
    regular builtins of POSIX, those that [dash] and [bash] add, and the
    reserved words [bash] adds. *)
Definition builtins : list string :=
  ["."; ":"; "alias"; "bg"; "bind"; "break"; "builtin"; "caller"; "cd";
   "command"; "compgen"; "complete"; "compopt"; "continue"; "coproc";
   "declare"; "dirs"; "disown"; "echo"; "enable"; "eval"; "exec"; "exit";
   "export"; "false"; "fc"; "fg"; "function"; "getopts"; "hash"; "help";
   "history"; "jobs"; "kill"; "let"; "local"; "logout"; "mapfile";
   "newgrp"; "popd"; "printf"; "pushd"; "pwd"; "read"; "readarray";
   "readonly"; "return"; "select"; "set"; "shift"; "shopt"; "source";
   "suspend"; "test"; "time"; "times"; "trap"; "true"; "type"; "typeset";
   "ulimit"; "umask"; "unalias"; "unset"; "wait"].

Definition is_builtin (w : string) : bool :=
  existsb (String.eqb w) builtins.

Definition simple (cmd : list string) : bool :=
  match cmd with
  | [] => false
  | w :: _ => negb (is_reserved w) && negb (is_builtin w)
  end.

(** The argument vectors of the programs the shell runs for [line], one
    after the other. *)
Definition parse (line : string) : option (list (list string)) :=
  match lex line EmptyString with
  | None => None
  | Some ts =>
      match group ts [] with
      | None => None
      | Some cmds => if forallb simple cmds then Some cmds else None
      end
  end.

(** A target that the shell passes on as it is: not empty, plain
    characters only. *)
Definition inert (s : string) : bool :=
  Js.truthy s && forallb is_plain (list_ascii_of_string s).

(** The commands that come to run when the runtime starts [img]: the
    image itself, or, for [/bin/sh -c line], what the shell makes of
    [line]. *)
Definition started (img : Node.process_image)
  : option (list (list string)) :=
  if (Node.file img =? "/bin/sh")%string then
    match Node.args img with
    | [flag; line] => if (flag =? "-c")%string then parse line else None
    | _ => None
    end
  else Some [Node.file img :: Node.args img].

End Sh.

(* ------------------------------------------------------------------ *)
(** ** The script *)

Module Index.

Import Node.

(** The callback given to [exec] (lines 8 to 17 of the script). *)
Definition callback (error : option exec_error) (stdout stderr : string)
  : prog :=
  when (Js.truthy stderr) (ConsoleError (Text stderr)) (
  when_not_null error (fun e => ConsoleError (ErrorObject e)) (
  ConsoleLog (Text stdout) (
  ConsoleLog (Text "Done!")
  Return))).

(** The command line of line 8: a template literal around [target]. *)
Definition command (target : Js.value) : string :=
  "cargo run -r --target " ++ Js.to_string target.

(** The whole script, given [process.argv]. *)
Definition main (argv : list string) : prog :=
  ReadFileSync (Js.index argv (Js.length argv - 2)) Utf8 (fun _ =>
  let target := Js.index argv (Js.length argv - 1) in
  Exec (command target) callback
  Return).

Definition run (argv : list string) (w : world) : run_result :=
  interp (main argv) w.

(** The script's two inputs, as it reads them from [process.argv]. *)
Definition sourcePath (argv : list string) : Js.value :=
  Js.index argv (Js.length argv - 2).

Definition target (argv : list string) : Js.value :=
  Js.index argv (Js.length argv - 1).

(** The validation step alone: line 4. *)
Definition validate (w : world) (path : Js.value)
  : list event * (exception + string) :=
  readFileSync w path Utf8.


End Index.

(* ------------------------------------------------------------------ *)
(** ** Vocabulary of the statements *)

Module Props.

Import Node.

(** The path names a readable regular file. *)
Definition readable (w : world) (path : Js.value) : bool :=
  match path with
  | Js.Undefined => false
  | Js.Str p => match files w p with File _ => true | _ => false end
  end.

(** The error code [fs.readFileSync] reports for a node it cannot read. *)
Definition errno_of (n : fs_node) : option errno :=
  match n with
  | Absent => Some ENOENT
  | Directory => Some EISDIR
  | Unreadable => Some EACCES
  | File _ => None
  end.

(** What is reported, in order, whatever the stream. *)
Definition reported (t : list event) : list console_arg :=
  map snd (console t).

Definition diagnostics (o : exec_result) : list console_arg :=
  (if Js.truthy (res_stderr o) then [Text (res_stderr o)] else [])
  ++ match res_error o with
     | Some e => [ErrorObject e]
     | None => []
     end.

Definition results (o : exec_result) : list console_arg :=
  [Text (res_stdout o); Text "Done!"].


(** The world with another file system and another decoder. *)
Definition set_files (fs : string -> fs_node)
  (dec : encoding -> list byte -> string) (w : world) : world :=
  {| files := fs; decode := dec; procs := procs w; outcome := outcome w;
     exec_fault := exec_fault w |}.

(** The reading of "the target reaches the toolchain as one element of its
    argument vector": the run starts one process, that process comes to
    run one command, and [t] is one of its words. *)
Definition passed_as_argument (argv : list string) (w : world) (t : string)
  : Prop :=
  exists img cmd,
    spawned (trace (Index.run argv w)) = [img]
    /\ Sh.started img = Some [cmd]
    /\ In t cmd.

(** The error, if any, with which the host refuses the shell that the
    run with these arguments asks for. *)
Definition fault (argv : list string) (w : world) : option spawn_errno :=
  exec_fault w (shell_image (Index.command (Index.target argv))).


(** The reading of "all reported output goes to standard output". *)
Definition all_on_stdout (t : list event) : Prop :=
  forall to v, In (to, v) (console t) -> to = StdoutStream.

End Props.

(* ------------------------------------------------------------------ *)
(** ** Concrete hosts *)

Module Scenario.

Import Node.

(** A file system with the one source file [hello.js], a directory
    [src] and a file [secret.txt] that may not be read. *)
Definition disk (p : string) : fs_node :=
  if (p =? "hello.js")%string then
    File (list_byte_of_string "console.log('Hello, world!');")
  else if (p =? "src")%string then Directory
  else if (p =? "secret.txt")%string then Unreadable
  else Absent.

(** The same paths, other contents. *)
Definition disk' (p : string) : fs_node :=
  if (p =? "hello.js")%string then
    File (list_byte_of_string "vdfjnskahfljdskahfdjklsahfjds")
  else Absent.

Definition ascii_decode (_ : encoding) (bs : list byte) : string :=
  string_of_list_byte bs.

Definition build_ok : exec_result :=
  {| res_error := None; res_stdout := "Hello, world!"; res_stderr := "" |}.

Definition build_failed : exec_result :=
  {| res_error := Some (ExitStatus 101);
     res_stdout := "";
     res_stderr := "error: could not compile" |}.

Definition no_toolchain : exec_result :=
  {| res_error := Some (ExitStatus 127);
     res_stdout := "";
     res_stderr := "/bin/sh: 1: cargo: not found" |}.

(** A host where every build succeeds. *)
Definition host : world :=
  {| files := disk; decode := ascii_decode; procs := [];
     outcome := fun _ => build_ok;
     exec_fault := linux_exec_fault |}.

(** A host without the toolchain: the shell starts and finds no
    [cargo]. *)
Definition bare_host : world :=
  {| files := disk; decode := ascii_decode; procs := [];
     outcome := fun _ => no_toolchain;
     exec_fault := linux_exec_fault |}.

(** A host where the first build fails and the later ones succeed. *)
Definition flaky_host : world :=
  {| files := disk; decode := ascii_decode; procs := [];
     outcome := fun pid => if Nat.eqb pid 0 then build_failed else build_ok;
     exec_fault := linux_exec_fault |}.

Definition argv_wasm : list string :=
  ["node"; "index.js"; "hello.js"; "wasm32"].

Definition argv_missing : list string :=
  ["node"; "index.js"; "missing.txt"; "wasm32"].

Definition argv_inject : list string :=
  ["node"; "index.js"; "hello.js"; "x86_64; rm -rf /"].



End Scenario.


(* ------------------------------------------------------------------ *)
(** ** The sample program of the README: a reverse Polish calculator

    The README carries a Rust program, [tokenizer] and [evaluate], as the
    sample given to the compiler.  Its numbers are [f32]; the program
    uses nothing of them but the five total operations [+ - * / %] and
    [str::parse], so these are the parameters of the section, together
    with [str::split_whitespace].  An operation is a function of its two
    operands (a NaN is one value).  The [Vec] used as the stack is a
    list with the newest element first.  The [main] of the sample, a
    loop on the lines of the standard input, is not part of the
    model. *)

Module Rpn.

Inductive Operator : Type :=
| Addition
| Substraction
| Multiplication
| Division
| Modulo.

Inductive OperationElt (f32 : Type) : Type :=
| EltOperator (operator : Operator)
| EltOperand (val : f32).

Arguments EltOperator {f32} operator.
Arguments EltOperand {f32} val.

(** [Result<T, String>]. *)
Inductive Result (T : Type) : Type :=
| Ok (t : T)
| Err (err : string).

Arguments Ok {T} t.
Arguments Err {T} err.

(** What a call does: it returns, or an [expect] panics. *)
Inductive call (T : Type) : Type :=
| Returns (r : Result T)
| Panics (msg : string).

Arguments Returns {T} r.
Arguments Panics {T} msg.

Definition dquote : string := String "034"%char EmptyString.

(** The stack: [Vec::push], [Vec::pop], [Vec::len]. *)
Definition push (T : Type) (x : T) (v : list T) : list T := x :: v.

Definition pop (T : Type) (v : list T) : option (T * list T) :=
  match v with
  | [] => None
  | x :: v' => Some (x, v')
  end.

Definition len (T : Type) (v : list T) : nat := List.length v.

(** Collecting an iterator of results into a result: the first [Err]
    met is the answer. *)
Fixpoint collect (T : Type) (rs : list (Result T)) : Result (list T) :=
  match rs with
  | [] => Ok []
  | Err e :: _ => Err e
  | Ok t :: rs' =>
      match collect rs' with
      | Ok ts => Ok (t :: ts)
      | Err e => Err e
      end
  end.

Section Float.

Variable f32 : Type.
Variables add sub mul div rem : f32 -> f32 -> f32.
Variable parse : string -> option f32.
Variable split_whitespace : string -> list string.

(** The closure given to [map] in [tokenizer]. *)
Definition element (el : string) : Result (OperationElt f32) :=
  if (el =? "+")%string then Ok (EltOperator Addition)
  else if (el =? "-")%string then Ok (EltOperator Substraction)
  else if (el =? "*")%string then Ok (EltOperator Multiplication)
  else if (el =? "/")%string then Ok (EltOperator Division)
  else if (el =? "%")%string then Ok (EltOperator Modulo)
  else match parse el with
       | Some val => Ok (EltOperand val)
       | None =>
           Err ("Cannot parse operand " ++ dquote ++ el ++ dquote)%string
       end.

Definition tokenizer (expr : string) : Result (list (OperationElt f32)) :=
  collect (map element (split_whitespace expr)).

(** The [match operator] of [evaluate]. *)
Definition compute (operator : Operator) (operand1 operand2 : f32) : f32 :=
  match operator with
  | Addition => add operand1 operand2
  | Substraction => sub operand1 operand2
  | Multiplication => mul operand1 operand2
  | Division => div operand1 operand2
  | Modulo => rem operand1 operand2
  end.

(** The [for token in tokens] loop of [evaluate]: the stack at the end,
    or the early [return Err], or the panic of an [expect]. *)
Fixpoint loop (tokens : list (OperationElt f32)) (stack : list f32)
  : call (list f32) :=
  match tokens with
  | [] => Returns (Ok stack)
  | EltOperator operator :: tokens' =>
      if (len stack <? 2)%nat then
        Returns (Err "Unsufficient operands before operator")
      else
        match pop stack with
        | None => Panics "expected f32 values in stack"
        | Some (operand2, stack1) =>
            match pop stack1 with
            | None => Panics "expected f32 values in stack"
            | Some (operand1, stack2) =>
                loop tokens'
                     (push (compute operator operand1 operand2) stack2)
            end
        end
  | EltOperand val :: tokens' => loop tokens' (push val stack)
  end.

(** [evaluate] from the tokens on. *)
Definition evaluate_tokens (tokens : list (OperationElt f32)) : call f32 :=
  match loop tokens [] with
  | Panics msg => Panics msg
  | Returns (Err err) => Returns (Err err)
  | Returns (Ok stack) =>
      if negb (len stack =? 1)%nat then
        Returns
          (Err "Remaining untreated operands. Probably missing operator.")
      else
        match pop stack with
        | None => Panics "expected a f32 value remaining in stack"
        | Some (v, _) => Returns (Ok v)
        end
  end.

Definition evaluate (expr : string) : call f32 :=
  match tokenizer expr with
  | Ok tokens => evaluate_tokens tokens
  | Err err => Returns (Err err)
  end.

End Float.

(** Expressions as trees, and their writing in reverse Polish
    notation. *)
Inductive tree (f32 : Type) : Type :=
| Leaf (val : f32)
| Node (operator : Operator) (left right : tree f32).

Arguments Leaf {f32} val.
Arguments Node {f32} operator left right.

Fixpoint postfix (f32 : Type) (e : tree f32) : list (OperationElt f32) :=
  match e with
  | Leaf val => [EltOperand val]
  | Node operator l r =>
      postfix l ++ postfix r ++ [EltOperator operator]
  end.

(** Several expressions written one after the other. *)
Definition unparse (f32 : Type) (es : list (tree f32))
  : list (OperationElt f32) :=
  List.concat (map (@postfix f32) es).

(** A token on numbers as a token on trees. *)
Definition lift (f32 : Type) (t : OperationElt f32)
  : OperationElt (tree f32) :=
  match t with
  | EltOperator operator => EltOperator operator
  | EltOperand val => EltOperand (Leaf val)
  end.

Section Value.

Variable f32 : Type.
Variables add sub mul div rem : f32 -> f32 -> f32.

Fixpoint value (e : tree f32) : f32 :=
  match e with
  | Leaf val => val
  | Node operator l r =>
      compute add sub mul div rem operator (value l) (value r)
  end.

End Value.

(** A token without its number. *)
Definition shape (f32 : Type) (t : OperationElt f32) : option Operator :=
  match t with
  | EltOperator operator => Some operator
  | EltOperand _ => None
  end.

(** A result without its number. *)
Definition verdict (T : Type) (c : call T) : call unit :=
  match c with
  | Returns (Ok _) => Returns (Ok tt)
  | Returns (Err err) => Returns (Err err)
  | Panics msg => Panics msg
  end.

(** The words [tokenizer] takes for operators, and the words it cannot
    read: not an operator and not a number. *)
Definition operators : list string := ["+"; "-"; "*"; "/"; "%"].

Definition unreadable (f32 : Type) (parse : string -> option f32)
  (el : string) : bool :=
  negb (existsb (String.eqb el) operators)
  && match parse el with
     | Some _ => false
     | None => true
     end.

(** Integers in place of [f32], to run the definitions: truncated
    division and remainder, and decimal digits for [parse]. *)
Module Sample.

Fixpoint digits (s : string) (acc : Z) : option Z :=
  match s with
  | EmptyString => Some acc
  | String c s' =>
      let n := nat_of_ascii c in
      if ((48 <=? n) && (n <=? 57))%nat
      then digits s' (10 * acc + Z.of_nat (n - 48))
      else None
  end.

Definition parse (s : string) : option Z :=
  match s with
  | EmptyString => None
  | _ => digits s 0
  end.

(** Words separated by runs of the white space of ASCII. *)
Definition is_space (c : ascii) : bool :=
  let n := nat_of_ascii c in
  ((9 <=? n) && (n <=? 13) || (n =? 32))%nat.

Fixpoint words (s : string) (cur : string) : list string :=
  match s with
  | EmptyString => match cur with EmptyString => [] | _ => [cur] end
  | String c s' =>
      if is_space c
      then match cur with
           | EmptyString => words s' EmptyString
           | _ => cur :: words s' EmptyString
           end
      else words s' (cur ++ String c EmptyString)
  end.

Definition split_whitespace (s : string) : list string :=
  words s EmptyString.

Definition evaluate : string -> call Z :=
  Rpn.evaluate Z.add Z.sub Z.mul Z.quot Z.rem parse split_whitespace.

End Sample.

End Rpn.

(* ------------------------------------------------------------------ *)
(** ** The shape of a run *)

Module RunFacts.

Import Node Index Props.

(** The callback writes its report and returns; it starts nothing and
    throws nothing. *)
Lemma interp_callback (o : exec_result) (w : world) :
  interp (callback (res_error o) (res_stdout o) (res_stderr o)) w =
  {| trace := map (Write StderrStream) (diagnostics o)
              ++ map (Write StdoutStream) (results o);
     result := Completed;
     final := w |}.
Proof.
  destruct o as [e out err]; unfold callback, diagnostics, results; simpl.
  destruct err as [|c err], e as [e|]; reflexivity.
Qed.

Lemma readable_inv (w : world) (v : Js.value) :
  readable w v = true ->
  exists p data, v = Js.Str p /\ files w p = File data.
Proof.
  destruct v as [|p]; simpl; [discriminate|].
  destruct (files w p) eqn:E; try discriminate.
  intros _; exists p, data; split; [reflexivity | exact E].
Qed.

Lemma unreadable_inv (w : world) (p : string) :
  readable w (Js.Str p) = false ->
  exists code, errno_of (files w p) = Some code.
Proof.
  simpl; destruct (files w p); try discriminate; intros _; eexists; reflexivity.
Qed.

(** A run whose source can be read and whose shell the host starts: one
    read, one shell, the report. *)
Lemma run_readable (argv : list string) (w : world) (p : string) :
  sourcePath argv = Js.Str p ->
  readable w (Js.Str p) = true ->
  fault argv w = None ->
  let pid := List.length (procs w) in
  let img := shell_image (command (target argv)) in
  run argv w =
  {| trace := FsRead p :: Spawn pid img
              :: map (Write StderrStream) (diagnostics (outcome w pid))
              ++ map (Write StdoutStream) (results (outcome w pid));
     result := Completed;
     final := spawn img w |}.
Proof.
  intros Hsrc Hr Hf; simpl in Hr. unfold fault in Hf.
  unfold run, main; fold (sourcePath argv); fold (target argv).
  rewrite Hsrc; cbn [interp readFileSync].
  destruct (files w p) eqn:E; try discriminate.
  rewrite Hf. cbn [interp result trace final app].
  rewrite interp_callback. reflexivity.
Qed.

(** A run whose source can be read and whose shell the host refuses:
    [exec] throws, after the read and before anything else. *)
Lemma run_refused (argv : list string) (w : world) (p : string)
  (code : spawn_errno) :
  sourcePath argv = Js.Str p ->
  readable w (Js.Str p) = true ->
  fault argv w = Some code ->
  run argv w =
  {| trace := [FsRead p]; result := Uncaught (SpawnError code); final := w |}.
Proof.
  intros Hsrc Hr Hf; simpl in Hr. unfold fault in Hf.
  unfold run, main; fold (sourcePath argv); fold (target argv).
  rewrite Hsrc; cbn [interp readFileSync].
  destruct (files w p) eqn:E; try discriminate.
  rewrite Hf. reflexivity.
Qed.

(** A run whose source is a path that cannot be read: the read is tried
    once and the exception ends the run. *)
Lemma run_unreadable (argv : list string) (w : world) (p : string)
  (code : errno) :
  sourcePath argv = Js.Str p ->
  errno_of (files w p) = Some code ->
  run argv w =
  {| trace := [FsRead p]; result := Uncaught (FsError code p); final := w |}.
Proof.
  intros Hsrc Hc.
  unfold run, main; fold (sourcePath argv); rewrite Hsrc; simpl.
  destruct (files w p); simpl in Hc; inversion Hc; subst; reflexivity.
Qed.

(** A run with no source path at all: the argument check of
    [readFileSync] throws before anything is touched. *)
Lemma run_undefined (argv : list string) (w : world) :
  sourcePath argv = Js.Undefined ->
  run argv w =
  {| trace := []; result := Uncaught InvalidArgType; final := w |}.
Proof.
  intros Hsrc.
  unfold run, main; fold (sourcePath argv); rewrite Hsrc; reflexivity.
Qed.

Lemma console_writes (to : stream) (vs : list console_arg) :
  console (map (Write to) vs) = map (pair to) vs.
Proof.
  induction vs as [|v vs IH]; simpl; [reflexivity | now rewrite IH].
Qed.

Lemma console_app (t1 t2 : list event) :
  console (t1 ++ t2) = (console t1 ++ console t2)%list.
Proof. apply flat_map_app. Qed.

Lemma spawned_app (t1 t2 : list event) :
  spawned (t1 ++ t2) = (spawned t1 ++ spawned t2)%list.
Proof. apply flat_map_app. Qed.

Lemma spawned_writes (to : stream) (vs : list console_arg) :
  spawned (map (Write to) vs) = [].
Proof. induction vs as [|v vs IH]; simpl; [reflexivity | exact IH]. Qed.

Lemma written_app (to : stream) (t1 t2 : list event) :
  written to (t1 ++ t2) = (written to t1 ++ written to t2)%list.
Proof. apply flat_map_app. Qed.

Lemma written_skip_read (to : stream) (p : string) (t : list event) :
  written to (FsRead p :: t) = written to t.
Proof. reflexivity. Qed.

Lemma written_skip_spawn (to : stream) (pid : nat) (img : process_image)
  (t : list event) :
  written to (Spawn pid img :: t) = written to t.
Proof. reflexivity. Qed.

Lemma written_same (to : stream) (vs : list console_arg) :
  written to (map (Write to) vs) = vs.
Proof.
  induction vs as [|v vs IH]; simpl; [reflexivity|].
  destruct to; simpl; now rewrite IH.
Qed.

Lemma written_other (to to' : stream) (vs : list console_arg) :
  to <> to' -> written to (map (Write to') vs) = [].
Proof.
  intros Hne; induction vs as [|v vs IH]; simpl; [reflexivity|].
  destruct to, to'; simpl; try exact IH; now elim Hne.
Qed.

(** The four ways a run can go. *)
Lemma run_cases (argv : list string) (w : world) :
  (sourcePath argv = Js.Undefined
   /\ run argv w
      = {| trace := []; result := Uncaught InvalidArgType; final := w |})
  \/ (exists p code,
        sourcePath argv = Js.Str p
        /\ readable w (Js.Str p) = false
        /\ errno_of (files w p) = Some code
        /\ run argv w
           = {| trace := [FsRead p]; result := Uncaught (FsError code p);
                final := w |})
  \/ (exists p code,
        sourcePath argv = Js.Str p
        /\ readable w (Js.Str p) = true
        /\ fault argv w = Some code
        /\ run argv w
           = {| trace := [FsRead p]; result := Uncaught (SpawnError code);
                final := w |})
  \/ (exists p,
        sourcePath argv = Js.Str p
        /\ readable w (Js.Str p) = true
        /\ fault argv w = None
        /\ run argv w
           = {| trace :=
                  FsRead p
                  :: Spawn (List.length (procs w))
                           (shell_image (command (target argv)))
                  :: map (Write StderrStream)
                         (diagnostics (outcome w (List.length (procs w))))
                  ++ map (Write StdoutStream)
                         (results (outcome w (List.length (procs w))));
                result := Completed;
                final := spawn (shell_image (command (target argv))) w |}).
Proof.
  destruct (sourcePath argv) as [|p] eqn:Hsrc.
  - left. split; [reflexivity | now apply run_undefined].
  - right. destruct (readable w (Js.Str p)) eqn:Hr.
    + right. destruct (fault argv w) as [code|] eqn:Hf.
      * left. exists p, code. repeat split; try assumption.
        now apply run_refused.
      * right. exists p. repeat split; try assumption.
        now apply run_readable.
    + left. destruct (unreadable_inv w p Hr) as [code Hc].
      exists p, code. repeat split; try assumption.
      now apply run_unreadable.
Qed.

(** The three scenarios: a build that succeeds, a source that is
    missing, a host without the toolchain. *)
Example scenario_build :
  run Scenario.argv_wasm Scenario.host =
  {| trace := [FsRead "hello.js";
               Spawn 0 (shell_image "cargo run -r --target wasm32");
               Write StdoutStream (Text "Hello, world!");
               Write StdoutStream (Text "Done!")];
     result := Completed;
     final := spawn (shell_image "cargo run -r --target wasm32")
                    Scenario.host |}.
Proof. reflexivity. Qed.

Example scenario_missing_source :
  run Scenario.argv_missing Scenario.host =
  {| trace := [FsRead "missing.txt"];
     result := Uncaught (FsError ENOENT "missing.txt");
     final := Scenario.host |}.
Proof. reflexivity. Qed.

Example scenario_no_toolchain :
  trace (run Scenario.argv_wasm Scenario.bare_host) =
  [FsRead "hello.js";
   Spawn 0 (shell_image "cargo run -r --target wasm32");
   Write StderrStream (Text "/bin/sh: 1: cargo: not found");
   Write StderrStream (ErrorObject (ExitStatus 127));
   Write StdoutStream (Text "");
   Write StdoutStream (Text "Done!")]
  /\ exit_code (result (run Scenario.argv_wasm Scenario.bare_host)) = 0.
Proof. split; reflexivity. Qed.


(** One byte less and the shell is started. *)
Example scenario_longest_target :
  fault ["node"; "index.js"; "hello.js";
         N.iter 131049 (String "a") EmptyString] Scenario.host = None.
Proof. vm_compute. reflexivity. Qed.

(** With the interpreter alone in the argument vector there is no last
    but one entry: the path is [undefined] and the target is the
    interpreter. *)
Example scenario_short_argv :
  sourcePath ["node"] = Js.Undefined
  /\ target ["node"] = Js.Str "node"
  /\ result (run ["node"] Scenario.host) = Uncaught InvalidArgType.
Proof. repeat split. Qed.

End RunFacts.

(* ------------------------------------------------------------------ *)
(** ** Failure of the validation step, exit status, report *)

Module Reporting.

Import Node Index Props RunFacts.


(** C2: when the source path does not name a readable file, the run ends
    with the file error of that path; the only thing it did was to try
    the read: no process was started and no completion line was
    printed. *)
Theorem C2_unreadable_source_fails_before_spawn
  (argv : list string) (w : world) (p : string) :
  sourcePath argv = Js.Str p ->
  readable w (Js.Str p) = false ->
  exists code,
    errno_of (files w p) = Some code
    /\ result (run argv w) = Uncaught (FsError code p)
    /\ trace (run argv w) = [FsRead p]
    /\ spawned (trace (run argv w)) = []
    /\ procs (final (run argv w)) = procs w
    /\ ~ In (Text "Done!") (reported (trace (run argv w))).
Proof.
  intros Hsrc Hr.
  destruct (unreadable_inv w p Hr) as [code Hc].
  exists code. rewrite (run_unreadable argv w Hsrc Hc); simpl.
  repeat split; auto.
Qed.

Lemma C2_witness :
  exists code,
    errno_of (files Scenario.host "missing.txt") = Some code
    /\ result (run Scenario.argv_missing Scenario.host)
       = Uncaught (FsError code "missing.txt")
    /\ trace (run Scenario.argv_missing Scenario.host)
       = [FsRead "missing.txt"]
    /\ spawned (trace (run Scenario.argv_missing Scenario.host)) = []
    /\ procs (final (run Scenario.argv_missing Scenario.host))
       = procs Scenario.host
    /\ ~ In (Text "Done!")
            (reported (trace (run Scenario.argv_missing Scenario.host))).
Proof.
  apply (@C2_unreadable_source_fails_before_spawn
           Scenario.argv_missing Scenario.host "missing.txt");
    reflexivity.
Defined.



(** C4: once the child is over, the report is, in this order: the
    captured error stream if it is not empty, the error object if there
    is one, the captured output, and the line [Done!].  The last two are
    printed in every case, and nothing is printed before the child was
    started.  (When the host refuses to start the child there is no
    child to be over: [exec] throws and nothing is reported.) *)
Theorem C4_report_order (argv : list string) (w : world) :
  readable w (sourcePath argv) = true ->
  match fault argv w with
  | None =>
      let o := outcome w (List.length (procs w)) in
      reported (trace (run argv w)) =
        ((if Js.truthy (res_stderr o) then [Text (res_stderr o)] else [])
         ++ match res_error o with
            | Some e => [ErrorObject e]
            | None => []
            end
         ++ [Text (res_stdout o); Text "Done!"])%list
      /\ exists before after,
           trace (run argv w) = (before ++ after)%list
           /\ spawned before = [shell_image (command (target argv))]
           /\ console before = []
           /\ spawned after = []
           /\ console after = console (trace (run argv w))
  | Some code =>
      reported (trace (run argv w)) = []
      /\ result (run argv w) = Uncaught (SpawnError code)
  end.
Proof.
  intros Hr.
  destruct (readable_inv w _ Hr) as (p & data & Hsrc & Hfile).
  rewrite Hsrc in Hr.
  destruct (fault argv w) as [code|] eqn:Hf.
  { rewrite (run_refused argv w Hsrc Hr Hf). split; reflexivity. }
  intros o.
  rewrite (run_readable argv w Hsrc Hr Hf); cbn [trace].
  fold o. split.
  - unfold reported. cbn [console flat_map app].
    rewrite console_app, !console_writes, map_app, !map_map; cbn [snd].
    rewrite !map_id. unfold diagnostics, results.
    now rewrite <- app_assoc.
  - exists [FsRead p; Spawn (List.length (procs w))
                          (shell_image (command (target argv)))].
    eexists; split; [reflexivity|].
    repeat split.
    now rewrite spawned_app, !spawned_writes.
Qed.

Lemma C4_witness :
  reported (trace (run Scenario.argv_wasm Scenario.flaky_host)) =
    [Text "error: could not compile"; ErrorObject (ExitStatus 101);
     Text ""; Text "Done!"]
  /\ exists before after,
       trace (run Scenario.argv_wasm Scenario.flaky_host)
       = (before ++ after)%list
       /\ spawned before = [shell_image "cargo run -r --target wasm32"]
       /\ console before = []
       /\ spawned after = []
       /\ console after
          = console (trace (run Scenario.argv_wasm Scenario.flaky_host)).
Proof.
  exact (@C4_report_order Scenario.argv_wasm Scenario.flaky_host eq_refl).
Defined.

(** C5, as the specification has it, fails: on a host where the build
    writes to its error stream, the script reports that text with
    [console.error], which is not the standard output. *)
Lemma C5_counterexample :
  In (StderrStream, Text "error: could not compile")
     (console (trace (run Scenario.argv_wasm Scenario.flaky_host)))
  /\ ~ all_on_stdout (trace (run Scenario.argv_wasm Scenario.flaky_host)).
Proof.
  assert (Hin : In (StderrStream, Text "error: could not compile")
     (console (trace (run Scenario.argv_wasm Scenario.flaky_host))))
    by (left; reflexivity).
  split; [exact Hin|].
  intros H. specialize (H _ _ Hin). discriminate H.
Qed.

(** C5, amended: the captured error stream (if not empty) and the error
    object (if any) are written to the standard error stream, in that
    order and with nothing else; the captured output and the line
    [Done!] are written to the standard output stream, in that order and
    with nothing else.  (When the host refuses to start the child,
    [exec] throws and the script writes to neither stream.) *)
Theorem C5_streams (argv : list string) (w : world) :
  readable w (sourcePath argv) = true ->
  match fault argv w with
  | None =>
      let o := outcome w (List.length (procs w)) in
      written StderrStream (trace (run argv w)) =
        ((if Js.truthy (res_stderr o) then [Text (res_stderr o)] else [])
         ++ match res_error o with
            | Some e => [ErrorObject e]
            | None => []
            end)%list
      /\ written StdoutStream (trace (run argv w)) =
           [Text (res_stdout o); Text "Done!"]
  | Some _ =>
      written StderrStream (trace (run argv w)) = []
      /\ written StdoutStream (trace (run argv w)) = []
  end.
Proof.
  intros Hr.
  destruct (readable_inv w _ Hr) as (p & data & Hsrc & Hfile).
  rewrite Hsrc in Hr.
  destruct (fault argv w) as [code|] eqn:Hf.
  { rewrite (run_refused argv w Hsrc Hr Hf). split; reflexivity. }
  intros o.
  rewrite (run_readable argv w Hsrc Hr Hf); cbn [trace].
  fold o. rewrite !written_skip_read, !written_skip_spawn.
  rewrite !written_app, !written_same.
  rewrite !written_other by discriminate.
  rewrite app_nil_r. split; reflexivity.
Qed.

Lemma C5_witness :
  written StderrStream (trace (run Scenario.argv_wasm Scenario.flaky_host))
  = [Text "error: could not compile"; ErrorObject (ExitStatus 101)]
  /\ written StdoutStream
       (trace (run Scenario.argv_wasm Scenario.flaky_host))
     = [Text ""; Text "Done!"].
Proof.
  exact (@C5_streams Scenario.argv_wasm Scenario.flaky_host eq_refl).
Defined.

End Reporting.

(* ------------------------------------------------------------------ *)
(** ** Arguments, validation, processes *)

Module Dispatch.

Import Node Index Props RunFacts.

Lemma index_last_but_one (front : list string) (a b : string) :
  Js.index (front ++ [a; b]) (Js.length (front ++ [a; b]) - 2) = Js.Str a.
Proof.
  unfold Js.index, Js.length. rewrite length_app; cbn [List.length].
  replace (Z.of_nat (List.length front + 2) - 2)
    with (Z.of_nat (List.length front)) by lia.
  destruct (Z.ltb_spec (Z.of_nat (List.length front)) 0) as [H|_]; [lia|].
  rewrite Nat2Z.id, nth_error_app2, Nat.sub_diag by lia. reflexivity.
Qed.

Lemma index_last (front : list string) (a b : string) :
  Js.index (front ++ [a; b]) (Js.length (front ++ [a; b]) - 1) = Js.Str b.
Proof.
  unfold Js.index, Js.length. rewrite length_app; cbn [List.length].
  replace (Z.of_nat (List.length front + 2) - 1)
    with (Z.of_nat (S (List.length front))) by lia.
  destruct (Z.ltb_spec (Z.of_nat (S (List.length front))) 0) as [H|_]; [lia|].
  rewrite Nat2Z.id, nth_error_app2 by lia.
  replace (S (List.length front) - List.length front)%nat with 1%nat by lia.
  reflexivity.
Qed.

Lemma filter_writes (f : event -> bool) (to : stream)
  (vs : list console_arg) :
  (forall v, f (Write to v) = false) -> filter f (map (Write to) vs) = [].
Proof.
  intros Hf; induction vs as [|v vs IH]; simpl; [reflexivity|].
  now rewrite Hf.
Qed.

Lemma filter_report (f : event -> bool) (o : exec_result) :
  (forall to v, f (Write to v) = false) ->
  filter f (map (Write StderrStream) (diagnostics o)
            ++ map (Write StdoutStream) (results o)) = [].
Proof.
  intros Hf. rewrite filter_app, !filter_writes by (intros; apply Hf).
  reflexivity.
Qed.



(** C6: validation is one read of the file system and no write.  On a
    readable file it yields the whole contents, decoded as UTF-8; on a
    path that is absent, a directory or not readable it throws the file
    error, and that exception ends the run after the single attempt. *)
Theorem C6_validate (argv : list string) (w : world) (p : string) :
  sourcePath argv = Js.Str p ->
  fst (validate w (Js.Str p)) = [FsRead p]
  /\ filter is_fs_read (trace (run argv w)) = [FsRead p]
  /\ files (final (run argv w)) = files w
  /\ (forall data, files w p = File data ->
        snd (validate w (Js.Str p)) = inr (decode w Utf8 data))
  /\ (forall code, errno_of (files w p) = Some code ->
        snd (validate w (Js.Str p)) = inl (FsError code p)
        /\ run argv w = {| trace := [FsRead p];
                           result := Uncaught (FsError code p);
                           final := w |}).
Proof.
  intros Hsrc. split; [reflexivity|].
  assert (Hrun : filter is_fs_read (trace (run argv w)) = [FsRead p]
                 /\ files (final (run argv w)) = files w).
  { destruct (run_cases argv w)
      as [[Hs _]|[(q & c & Hs & _ & _ & ->)|[(q & c & Hs & _ & _ & ->)
                 |(q & Hs & _ & _ & ->)]]];
      rewrite Hsrc in Hs; try discriminate Hs; injection Hs as <-.
    - split; reflexivity.
    - split; reflexivity.
    - cbn [trace final filter is_fs_read].
      rewrite filter_report by reflexivity. split; reflexivity. }
  destruct Hrun as [H1 H2]. repeat split; try assumption.
  - intros data Hf. unfold validate; simpl. now rewrite Hf.
  - unfold validate; simpl.
    destruct (files w p); simpl in H; inversion H; reflexivity.
  - now apply run_unreadable.
Qed.

Lemma C6_witness :
  fst (validate Scenario.host (Js.Str "hello.js")) = [FsRead "hello.js"]
  /\ filter is_fs_read (trace (run Scenario.argv_wasm Scenario.host))
     = [FsRead "hello.js"]
  /\ files (final (run Scenario.argv_wasm Scenario.host))
     = files Scenario.host
  /\ (forall data, files Scenario.host "hello.js" = File data ->
        snd (validate Scenario.host (Js.Str "hello.js"))
        = inr (decode Scenario.host Utf8 data))
  /\ (forall code, errno_of (files Scenario.host "hello.js") = Some code ->
        snd (validate Scenario.host (Js.Str "hello.js"))
        = inl (FsError code "hello.js")
        /\ run Scenario.argv_wasm Scenario.host
           = {| trace := [FsRead "hello.js"];
                result := Uncaught (FsError code "hello.js");
                final := Scenario.host |}).
Proof.
  apply (@C6_validate Scenario.argv_wasm Scenario.host "hello.js").
  reflexivity.
Defined.




End Dispatch.

(* ------------------------------------------------------------------ *)
(** ** What reaches the command line *)

Module CommandLine.

Import Node Index Props RunFacts Dispatch.

(** What a run on a readable source starts: the shell with the line, or
    nothing when the host refuses it. *)
Lemma spawned_run (argv : list string) (w : world) :
  readable w (sourcePath argv) = true ->
  spawned (trace (run argv w))
  = match fault argv w with
    | None => [shell_image (command (target argv))]
    | Some _ => []
    end.
Proof.
  intros Hr. destruct (readable_inv w _ Hr) as (p & data & Hsrc & Hfile).
  rewrite Hsrc in Hr. destruct (fault argv w) as [code|] eqn:Hf.
  - now rewrite (run_refused argv w Hsrc Hr Hf).
  - rewrite (run_readable argv w Hsrc Hr Hf); cbn [trace].
    cbn [spawned flat_map app].
    change (flat_map _ ?t) with (spawned t).
    now rewrite spawned_app, !spawned_writes.
Qed.


Lemma first_event_is_the_read (argv : list string) (w : world)
  (p : string) :
  sourcePath argv = Js.Str p ->
  hd_error (trace (run argv w)) = Some (FsRead p).
Proof.
  intros Hsrc.
  destruct (run_cases argv w)
    as [[Hs _]|[(q & c & Hs & _ & _ & ->)|[(q & c & Hs & _ & _ & ->)
               |(q & Hs & _ & _ & ->)]]];
    rewrite Hsrc in Hs; try discriminate Hs; injection Hs as <-;
    reflexivity.
Qed.

(** C8: the source path is the last but one entry of the argument list
    and the target the last one, whatever comes before; the target is put
    into the command line as it is, and every target the host can start
    a shell with gets its process started: none is refused or rewritten
    by the script. *)
Theorem C8_positional_arguments
  (front : list string) (src tgt : string) (w : world) :
  readable w (Js.Str src) = true ->
  let argv := (front ++ [src; tgt])%list in
  sourcePath argv = Js.Str src
  /\ target argv = Js.Str tgt
  /\ hd_error (trace (run argv w)) = Some (FsRead src)
  /\ command (target argv) = ("cargo run -r --target " ++ tgt)%string
  /\ spawned (trace (run argv w))
     = match fault argv w with
       | None => [shell_image ("cargo run -r --target " ++ tgt)%string]
       | Some _ => []
       end.
Proof.
  intros Hr argv.
  assert (Hs : sourcePath argv = Js.Str src) by apply index_last_but_one.
  assert (Ht : target argv = Js.Str tgt) by apply index_last.
  repeat split; try assumption.
  - now apply first_event_is_the_read.
  - now rewrite Ht.
  - rewrite spawned_run by now rewrite Hs.
    now rewrite Ht.
Qed.

Lemma C8_witness :
  let argv := (["node"; "index.js"] ++ ["hello.js"; "x86_64; rm -rf /"])%list
  in
  sourcePath argv = Js.Str "hello.js"
  /\ target argv = Js.Str "x86_64; rm -rf /"
  /\ hd_error (trace (run argv Scenario.host)) = Some (FsRead "hello.js")
  /\ command (target argv) = "cargo run -r --target x86_64; rm -rf /"
  /\ spawned (trace (run argv Scenario.host))
     = [shell_image "cargo run -r --target x86_64; rm -rf /"].
Proof.
  exact (@C8_positional_arguments ["node"; "index.js"] "hello.js"
           "x86_64; rm -rf /" Scenario.host eq_refl).
Defined.

(** C9: with the same arguments, process table and child outcomes, two
    hosts whose file systems both hold a readable file at the source
    path give the same run, whatever the two files contain and however
    they are decoded: same trace, same completion, same command line,
    which is a function of the target alone. *)
Theorem C9_contents_do_not_influence
  (argv : list string) (w : world)
  (fs' : string -> fs_node) (dec' : encoding -> list byte -> string) :
  readable w (sourcePath argv) = true ->
  readable (set_files fs' dec' w) (sourcePath argv) = true ->
  trace (run argv (set_files fs' dec' w)) = trace (run argv w)
  /\ result (run argv (set_files fs' dec' w)) = result (run argv w)
  /\ procs (final (run argv (set_files fs' dec' w)))
     = procs (final (run argv w))
  /\ spawned (trace (run argv w))
     = match fault argv w with
       | None =>
           [shell_image ("cargo run -r --target "
                         ++ Js.to_string (target argv))%string]
       | Some _ => []
       end.
Proof.
  intros Hr Hr'.
  destruct (readable_inv w _ Hr) as (p & data & Hsrc & Hfile).
  split; [|split; [|split]]; try (now apply spawned_run);
    rewrite Hsrc in Hr, Hr';
    (destruct (fault argv w) as [code|] eqn:Hf;
     [ rewrite (run_refused argv w Hsrc Hr Hf),
               (run_refused argv (set_files fs' dec' w) Hsrc Hr' Hf)
     | rewrite (run_readable argv w Hsrc Hr Hf),
               (run_readable argv (set_files fs' dec' w) Hsrc Hr' Hf) ]);
    reflexivity.
Qed.

Lemma C9_witness :
  let argv := Scenario.argv_wasm in
  let w := Scenario.host in
  let w' := set_files Scenario.disk' Scenario.ascii_decode w in
  files w "hello.js" <> files w' "hello.js"
  /\ trace (run argv w') = trace (run argv w)
  /\ result (run argv w') = result (run argv w)
  /\ procs (final (run argv w')) = procs (final (run argv w))
  /\ spawned (trace (run argv w))
     = [shell_image "cargo run -r --target wasm32"].
Proof.
  split; [discriminate|].
  exact (@C9_contents_do_not_influence Scenario.argv_wasm Scenario.host
           Scenario.disk' Scenario.ascii_decode eq_refl eq_refl).
Defined.

(** C10: the script never looks at the number of arguments.  With the
    interpreter, the script and fewer than two arguments of the user, it
    takes the last two entries of the whole vector all the same: the
    interpreter and the script when the user gave none, the script and
    the one argument when the user gave one.  It goes on to read that
    path; no error about the arguments is raised. *)
Theorem C10_no_argument_count_check
  (node script : string) (user : list string) (w : world) :
  (List.length user < 2)%nat ->
  let argv := node :: script :: user in
  exists src tgt,
    (user = [] /\ src = node /\ tgt = script
     \/ user = [tgt] /\ src = script)
    /\ sourcePath argv = Js.Str src
    /\ target argv = Js.Str tgt
    /\ main argv
       = ReadFileSync (Js.Str src) Utf8 (fun _ =>
           Exec ("cargo run -r --target " ++ tgt) callback Return)
    /\ hd_error (trace (run argv w)) = Some (FsRead src)
    /\ result (run argv w) <> Uncaught InvalidArgType.
Proof.
  intros Hlen argv.
  assert (Hcases : exists src tgt,
             (user = [] /\ src = node /\ tgt = script
              \/ user = [tgt] /\ src = script)
             /\ sourcePath argv = Js.Str src
             /\ target argv = Js.Str tgt
             /\ main argv
                = ReadFileSync (Js.Str src) Utf8 (fun _ =>
                    Exec ("cargo run -r --target " ++ tgt) callback Return)).
  { subst argv. destruct user as [|a [|b user]].
    - exists node, script. repeat split; auto.
    - exists script, a. repeat split; auto.
    - simpl in Hlen; lia. }
  destruct Hcases as (src & tgt & Hu & Hs & Ht & Hm).
  exists src, tgt. repeat split; try assumption.
  - now apply first_event_is_the_read.
  - destruct (run_cases argv w)
      as [[Hs' _]|[(q & c & _ & _ & _ & ->)|[(q & c & _ & _ & _ & ->)
                  |(q & _ & _ & _ & ->)]]]; cbn [result];
      try discriminate.
    rewrite Hs in Hs'. discriminate Hs'.
Qed.

Lemma C10_witness :
  let argv := ["node"; "index.js"; "hello.js"] in
  exists src tgt,
    (["hello.js"] = [] /\ src = "node" /\ tgt = "index.js"
     \/ ["hello.js"] = [tgt] /\ src = "index.js")
    /\ sourcePath argv = Js.Str src
    /\ target argv = Js.Str tgt
    /\ main argv
       = ReadFileSync (Js.Str src) Utf8 (fun _ =>
           Exec ("cargo run -r --target " ++ tgt) callback Return)
    /\ hd_error (trace (run argv Scenario.host)) = Some (FsRead src)
    /\ result (run argv Scenario.host) <> Uncaught InvalidArgType.
Proof.
  apply (@C10_no_argument_count_check "node" "index.js" ["hello.js"]
           Scenario.host).
  simpl; lia.
Defined.

End CommandLine.

(* ------------------------------------------------------------------ *)
(** ** The target and the shell *)

Module Injection.

Import Node Index Props RunFacts CommandLine.

Lemma append_snoc (a : string) (c : ascii) (b : string) :
  ((a ++ String c EmptyString) ++ b = a ++ String c b)%string.
Proof. induction a as [|x a IH]; simpl; [reflexivity | now rewrite IH]. Qed.

Lemma append_empty_r (a : string) : (a ++ EmptyString = a)%string.
Proof. induction a as [|x a IH]; simpl; [reflexivity | now rewrite IH]. Qed.

(** A run of plain characters extends the word being read and ends the
    line. *)
Lemma lex_plain (s cur : string) :
  forallb Sh.is_plain (list_ascii_of_string s) = true ->
  Sh.lex s cur = Some (Sh.flush (cur ++ s) []).
Proof.
  revert cur; induction s as [|c s IH]; intros cur Hs; simpl in *.
  - now rewrite append_empty_r.
  - apply andb_prop in Hs as [Hc Hs]. rewrite Hc, (IH _ Hs).
    now rewrite append_snoc.
Qed.

(** The words in front of the target are read one by one. *)
Lemma lex_command (t : string) :
  Sh.lex (command (Js.Str t)) EmptyString
  = option_map (Sh.flush "cargo")
      (option_map (Sh.flush "run")
         (option_map (Sh.flush "-r")
            (option_map (Sh.flush "--target") (Sh.lex t EmptyString)))).
Proof. reflexivity. Qed.

Lemma parse_inert (t : string) :
  Sh.inert t = true ->
  Sh.parse (command (Js.Str t))
  = Some [["cargo"; "run"; "-r"; "--target"; t]].
Proof.
  unfold Sh.inert; intros H; apply andb_prop in H as [Hne Hp].
  unfold Sh.parse. rewrite lex_command, (lex_plain t EmptyString Hp).
  destruct t as [|c t]; [discriminate|]. reflexivity.
Qed.

(** C1, as the specification has it, fails.  For the target
    [x86_64; rm -rf /] the one process the run starts is the shell, with
    the whole line as the operand of [-c]; the shell reads the [;] as
    the end of the first command and starts a second one, [rm -rf /];
    the target is not a word of any command. *)
Lemma C1_counterexample :
  spawned (trace (run Scenario.argv_inject Scenario.host))
  = [{| file := "/bin/sh";
        args := ["-c"; "cargo run -r --target x86_64; rm -rf /"] |}]
  /\ Sh.started {| file := "/bin/sh";
                   args := ["-c"; "cargo run -r --target x86_64; rm -rf /"] |}
     = Some [["cargo"; "run"; "-r"; "--target"; "x86_64"];
             ["rm"; "-rf"; "/"]]
  /\ ~ passed_as_argument Scenario.argv_inject Scenario.host
         "x86_64; rm -rf /".
Proof.
  split; [reflexivity|]. split; [reflexivity|].
  intros (img & cmd & Hs & Hc & _).
  change (spawned (trace (run Scenario.argv_inject Scenario.host)))
    with [shell_image "cargo run -r --target x86_64; rm -rf /"] in Hs.
  injection Hs as <-.
  change (Sh.started (shell_image "cargo run -r --target x86_64; rm -rf /"))
    with (Some [["cargo"; "run"; "-r"; "--target"; "x86_64"];
                ["rm"; "-rf"; "/"]]) in Hc.
  discriminate Hc.
Qed.

(** C1, amended: the target is put as it is at the end of the line
    [cargo run -r --target <target>], and that line is given to [exec]:
    unless the host refuses it, the one process the run starts is the
    shell with the line as the operand of [-c].  The target is part of a
    line read by the shell, not an element of an argument vector made by
    the script.  When the target is not empty and made of letters,
    digits and [_ - . / , : + @], the shell reads the line as one
    command, the toolchain, with the target as the last element of its
    argument vector. *)
Theorem C1_target_goes_through_the_shell
  (argv : list string) (w : world) (t : string) :
  readable w (sourcePath argv) = true ->
  target argv = Js.Str t ->
  spawned (trace (run argv w))
  = match fault argv w with
    | None =>
        [{| file := "/bin/sh";
            args := ["-c"; ("cargo run -r --target " ++ t)%string] |}]
    | Some _ => []
    end
  /\ (Sh.inert t = true ->
      Sh.started {| file := "/bin/sh";
                    args := ["-c"; ("cargo run -r --target " ++ t)%string] |}
      = Some [["cargo"; "run"; "-r"; "--target"; t]]
      /\ (fault argv w = None -> passed_as_argument argv w t)).
Proof.
  intros Hr Ht.
  assert (Hs : spawned (trace (run argv w))
               = match fault argv w with
                 | None => [shell_image (command (Js.Str t))]
                 | Some _ => []
                 end)
    by (rewrite <- Ht; now apply spawned_run).
  split; [exact Hs|].
  intros Hi.
  assert (Hp : Sh.started (shell_image (command (Js.Str t)))
               = Some [["cargo"; "run"; "-r"; "--target"; t]])
    by (unfold Sh.started, shell_image; cbn [file args String.eqb Ascii.eqb
          Bool.eqb]; now apply parse_inert).
  split; [exact Hp|].
  intros Hf. rewrite Hf in Hs.
  exists (shell_image (command (Js.Str t))).
  exists ["cargo"; "run"; "-r"; "--target"; t].
  repeat split; try assumption. simpl; tauto.
Qed.

Lemma C1_witness :
  spawned (trace (run Scenario.argv_wasm Scenario.host))
  = [{| file := "/bin/sh";
        args := ["-c"; "cargo run -r --target wasm32"] |}]
  /\ Sh.inert "wasm32" = true
  /\ Sh.started {| file := "/bin/sh";
                   args := ["-c"; "cargo run -r --target wasm32"] |}
     = Some [["cargo"; "run"; "-r"; "--target"; "wasm32"]]
  /\ passed_as_argument Scenario.argv_wasm Scenario.host "wasm32".
Proof.
  destruct (@C1_target_goes_through_the_shell
              Scenario.argv_wasm Scenario.host "wasm32"
              eq_refl eq_refl) as [Hspawn Hinert].
  destruct (Hinert eq_refl) as [Hstart Hpass].
  split; [exact Hspawn|]. split; [reflexivity|].
  split; [exact Hstart | exact (Hpass eq_refl)].
Defined.

End Injection.

(* ------------------------------------------------------------------ *)
(** ** Edges of the script *)

Module Edges.

Import Node Index Props RunFacts Dispatch CommandLine.

Lemma split_last_two (l : list string) :
  (2 <= List.length l)%nat -> exists front a b, l = (front ++ [a; b])%list.
Proof.
  induction l as [|x l IH]; simpl; [lia|]. intros H.
  destruct l as [|y [|z l]].
  - simpl in H; lia.
  - exists [], x, y. reflexivity.
  - destruct IH as (front & a & b & E); [simpl; lia|].
    exists (x :: front), a, b. now rewrite E.
Qed.

Lemma short_argv_undefined (argv : list string) :
  (List.length argv < 2)%nat -> sourcePath argv = Js.Undefined.
Proof.
  destruct argv as [|a [|b l]]; simpl; intros H;
    [reflexivity | reflexivity | lia].
Qed.

(** X1: with fewer than two entries in the argument vector there is no
    last but one entry; [readFileSync] gets [undefined], throws on its
    argument check, and the run ends there: the file system was not
    touched, nothing was started, nothing was printed. *)
Theorem short_argv_throws_before_any_effect
  (argv : list string) (w : world) :
  (List.length argv < 2)%nat ->
  run argv w
  = {| trace := []; result := Uncaught InvalidArgType; final := w |}.
Proof.
  intros H. apply run_undefined. now apply short_argv_undefined.
Qed.

Lemma short_argv_witness :
  run ["node"] Scenario.host
  = {| trace := []; result := Uncaught InvalidArgType;
       final := Scenario.host |}.
Proof.
  apply (@short_argv_throws_before_any_effect ["node"] Scenario.host).
  simpl; lia.
Defined.

(** X2: a process is started only when the argument vector ends in a
    source path that can be read and a target; the line given to the
    shell then ends in that target.  In particular the text
    [undefined], which a missing target would turn into, never reaches a
    command line this way. *)
Theorem spawn_needs_source_and_target (argv : list string) (w : world) :
  spawned (trace (run argv w)) <> [] ->
  exists front src tgt,
    argv = (front ++ [src; tgt])%list
    /\ readable w (Js.Str src) = true
    /\ spawned (trace (run argv w))
       = [shell_image ("cargo run -r --target " ++ tgt)%string].
Proof.
  intros Hsp.
  destruct (Nat.lt_ge_cases (List.length argv) 2) as [Hshort|Hlong].
  - rewrite (run_undefined argv w (short_argv_undefined argv Hshort)) in Hsp.
    now elim Hsp.
  - destruct (split_last_two argv Hlong) as (front & src & tgt & ->).
    exists front, src, tgt. split; [reflexivity|].
    assert (Hs : sourcePath (front ++ [src; tgt]) = Js.Str src)
      by apply index_last_but_one.
    destruct (readable w (Js.Str src)) eqn:Hr.
    + split; [reflexivity|].
      rewrite spawned_run in Hsp |- * by now rewrite Hs.
      destruct (fault (front ++ [src; tgt]) w); [now elim Hsp|].
      unfold command. now rewrite (index_last front src tgt : target _ = _).
    + destruct (unreadable_inv w src Hr) as [code Hc].
      rewrite (run_unreadable _ w Hs Hc) in Hsp. now elim Hsp.
Qed.

Lemma spawn_needs_source_and_target_witness :
  exists front src tgt,
    Scenario.argv_wasm = (front ++ [src; tgt])%list
    /\ readable Scenario.host (Js.Str src) = true
    /\ spawned (trace (run Scenario.argv_wasm Scenario.host))
       = [shell_image ("cargo run -r --target " ++ tgt)%string].
Proof.
  apply (@spawn_needs_source_and_target Scenario.argv_wasm Scenario.host).
  discriminate.
Defined.


End Edges.

(* ------------------------------------------------------------------ *)
(** ** What the shell makes of other targets *)

Module Splitting.

Import Node Index Props RunFacts CommandLine Injection.

Lemma lex_plain_then (s rest cur : string) :
  forallb Sh.is_plain (list_ascii_of_string s) = true ->
  Sh.lex (s ++ rest) cur = Sh.lex rest (cur ++ s).
Proof.
  revert cur; induction s as [|c s IH]; intros cur Hs; simpl in *.
  - now rewrite append_empty_r.
  - apply andb_prop in Hs as [Hc Hs]. rewrite Hc, (IH _ Hs).
    now rewrite append_snoc.
Qed.

Lemma inert_inv (t : string) :
  Sh.inert t = true ->
  forallb Sh.is_plain (list_ascii_of_string t) = true
  /\ forall rest, Sh.flush t rest = Sh.Word t :: rest.
Proof.
  unfold Sh.inert; intros H; apply andb_prop in H as [Hne Hp].
  split; [exact Hp|]. destruct t; [discriminate | reflexivity].
Qed.


Lemma lex_inert_blank (t rest : string) :
  Sh.inert t = true ->
  Sh.lex (t ++ " " ++ rest) EmptyString
  = option_map (cons (Sh.Word t)) (Sh.lex rest EmptyString).
Proof.
  intros Hi. destruct (inert_inv t Hi) as [Hp Hf].
  rewrite (lex_plain_then t _ EmptyString Hp). cbn [append].
  change (Sh.lex (String " " rest) t)
    with (option_map (Sh.flush t) (Sh.lex rest EmptyString)).
  destruct (Sh.lex rest EmptyString); simpl; [now rewrite Hf | reflexivity].
Qed.

Lemma lex_words (t : string) (us : list string) :
  forallb Sh.inert (t :: us) = true ->
  Sh.lex (String.concat " " (t :: us)) EmptyString
  = Some (map Sh.Word (t :: us)).
Proof.
  revert t; induction us as [|u us IH]; intros t H;
    cbn [forallb] in H; apply andb_prop in H as [Ht Hus].
  - destruct (inert_inv t Ht) as [Hp Hf]. cbn [String.concat map].
    rewrite (lex_plain t EmptyString Hp). cbn [append]. now rewrite Hf.
  - change (String.concat " " (t :: u :: us))
      with (t ++ " " ++ String.concat " " (u :: us))%string.
    rewrite (lex_inert_blank t _ Ht), (IH u Hus). reflexivity.
Qed.

Lemma group_words (ws cur : list string) :
  Sh.group (map Sh.Word ws) cur
  = Some (match (cur ++ ws)%list with [] => [] | c => [c] end).
Proof.
  revert cur; induction ws as [|w ws IH]; intros cur; cbn [map Sh.group].
  - rewrite app_nil_r. destruct cur; reflexivity.
  - rewrite IH, <- app_assoc. reflexivity.
Qed.




(** A builtin after the [;] puts the line outside of what is modelled:
    nothing is said of [exit], after which the shell runs no further
    command. *)
Example builtin_not_modelled :
  Sh.parse "cargo run -r --target x86_64; exit; rm -rf /" = None
  /\ Sh.parse "cargo run -r --target x86_64; exec cargo build" = None.
Proof. split; reflexivity. Qed.

(** X5: blanks in the target split it: when the target is made of
    words of letters, digits and [_ - . / , : + @] with one space
    between them, the shell reads the line as the toolchain with each
    word as an argument of its own, so that every word after the first
    is an additional argument of the toolchain.  The shell with that
    line is what the run starts, unless the host refuses it. *)
Theorem blanks_split_the_target
  (argv : list string) (w : world) (t : string) (us : list string) :
  readable w (sourcePath argv) = true ->
  target argv = Js.Str (String.concat " " (t :: us)) ->
  forallb Sh.inert (t :: us) = true ->
  let img :=
    shell_image (command (Js.Str (String.concat " " (t :: us)))) in
  spawned (trace (run argv w))
  = match fault argv w with
    | None => [img]
    | Some _ => []
    end
  /\ Sh.started img
     = Some [(["cargo"; "run"; "-r"; "--target"] ++ t :: us)%list].
Proof.
  intros Hr Ht Hi img. subst img.
  split; [rewrite <- Ht; now apply spawned_run|].
  unfold Sh.started, shell_image;
    cbn [file args String.eqb Ascii.eqb Bool.eqb].
  unfold Sh.parse. rewrite lex_command, (lex_words _ _ Hi).
  cbn [option_map Sh.flush].
  change (Sh.group ?l []) with (Sh.group l []).
  cbn [Sh.group app]. rewrite group_words. reflexivity.
Qed.

Lemma blanks_split_witness :
  exists img,
    spawned (trace (run ["node"; "index.js"; "hello.js";
                         "wasm32 --offline -vv"] Scenario.host)) = [img]
    /\ Sh.started img
       = Some [["cargo"; "run"; "-r"; "--target";
                "wasm32"; "--offline"; "-vv"]].
Proof.
  exists (shell_image "cargo run -r --target wasm32 --offline -vv").
  exact (@blanks_split_the_target
           ["node"; "index.js"; "hello.js"; "wasm32 --offline -vv"]
           Scenario.host "wasm32" ["--offline"; "-vv"]
           eq_refl eq_refl eq_refl).
Defined.

End Splitting.

(* ------------------------------------------------------------------ *)
(** ** The calculator of the README *)

Module RpnFacts.

Import Rpn.

Lemma compute_tree (f32 : Type) (operator : Operator) (a b : tree f32) :
  compute (Node Addition) (Node Substraction) (Node Multiplication)
          (Node Division) (Node Modulo) operator a b
  = Node operator a b.
Proof. destruct operator; reflexivity. Qed.

Section Evaluation.

Variable f32 : Type.
Variables add sub mul div rem : f32 -> f32 -> f32.

Local Abbreviation loop := (Rpn.loop add sub mul div rem).
Local Abbreviation evaluate_tokens := (Rpn.evaluate_tokens add sub mul div rem).
Local Abbreviation value := (Rpn.value add sub mul div rem).

(** The same loop on trees: the five operations build nodes. *)
Local Abbreviation loop_tree :=
  (Rpn.loop (Node (f32:=f32) Addition) (Node Substraction)
            (Node Multiplication) (Node Division) (Node Modulo)).

Lemma loop_postfix (e : tree f32) (rest : list (OperationElt f32))
  (stack : list f32) :
  loop (postfix e ++ rest) stack = loop rest (value e :: stack).
Proof.
  revert rest stack; induction e as [v|op l IHl r IHr]; intros rest stack.
  - reflexivity.
  - cbn [postfix]. rewrite <- !app_assoc, IHl, IHr. reflexivity.
Qed.

Lemma loop_unparse (es : list (tree f32)) (rest : list (OperationElt f32))
  (stack : list f32) :
  loop (unparse es ++ rest) stack
  = loop rest (rev (map value es) ++ stack).
Proof.
  revert stack; induction es as [|e es IH]; intros stack; [reflexivity|].
  unfold unparse in *; cbn [map List.concat rev].
  rewrite <- !app_assoc, loop_postfix, IH. reflexivity.
Qed.

(** The loop on numbers is the loop on trees, followed by [value]. *)
Lemma loop_value (ts : list (OperationElt f32)) (es : list (tree f32)) :
  loop ts (map value es)
  = match loop_tree (map (@lift f32) ts) es with
    | Returns (Ok es') => Returns (Ok (map value es'))
    | Returns (Err err) => Returns (Err err)
    | Panics msg => Panics msg
    end.
Proof.
  revert es; induction ts as [|t ts IH]; intros es; [reflexivity|].
  destruct t as [op|v]; cbn [map lift Rpn.loop].
  - unfold len; rewrite length_map.
    destruct es as [|a [|b es]]; try reflexivity.
    cbn [List.length Nat.ltb Nat.leb map pop push].
    rewrite compute_tree.
    exact (IH (Node op b a :: es)).
  - exact (IH (Leaf v :: es)).
Qed.

(** What the loop on trees has on its stack is what it has read. *)
Lemma loop_tree_reads (ts : list (OperationElt f32))
  (es es' : list (tree f32)) :
  loop_tree (map (@lift f32) ts) es = Returns (Ok es') ->
  unparse (rev es') = (unparse (rev es) ++ ts)%list.
Proof.
  revert es; induction ts as [|t ts IH]; intros es H.
  - cbn in H. injection H as <-. now rewrite app_nil_r.
  - destruct t as [op|v]; cbn [map lift Rpn.loop] in H.
    + destruct es as [|a [|b es]]; try discriminate H.
      cbn [len List.length Nat.ltb Nat.leb pop push] in H.
      rewrite compute_tree in H. rewrite (IH _ H).
      unfold push, unparse; cbn [rev].
      rewrite !map_app, !concat_app; cbn [map List.concat postfix].
      rewrite !app_nil_r, <- !app_assoc. reflexivity.
    + rewrite (IH _ H). unfold push, unparse; cbn [rev].
      rewrite !map_app, !concat_app; cbn [map List.concat postfix].
      rewrite <- !app_assoc. reflexivity.
Qed.

Lemma loop_ok_inv (ts : list (OperationElt f32)) (stack : list f32) :
  loop ts [] = Returns (Ok stack) ->
  exists es, ts = unparse es /\ stack = rev (map value es).
Proof.
  intros H. pose proof (loop_value ts []) as Hv; cbn [map] in Hv.
  rewrite H in Hv.
  destruct (loop_tree (map (@lift f32) ts) []) as [[es'|err]|msg] eqn:E;
    try discriminate Hv.
  injection Hv as ->. exists (rev es'). split.
  - now rewrite (loop_tree_reads ts [] E).
  - now rewrite map_rev, rev_involutive.
Qed.

Lemma loop_returns (ts : list (OperationElt f32)) (stack : list f32) :
  (exists s, loop ts stack = Returns (Ok s))
  \/ loop ts stack = Returns (Err "Unsufficient operands before operator").
Proof.
  revert stack; induction ts as [|t ts IH]; intros stack.
  - left; eexists; reflexivity.
  - destruct t as [op|v]; cbn [Rpn.loop].
    + destruct stack as [|a [|b stack]]; try (right; reflexivity).
      apply IH.
    + apply IH.
Qed.

Lemma evaluate_tokens_returns (ts : list (OperationElt f32)) :
  (exists v, evaluate_tokens ts = Returns (Ok v))
  \/ evaluate_tokens ts
     = Returns (Err "Unsufficient operands before operator")
  \/ evaluate_tokens ts
     = Returns
         (Err "Remaining untreated operands. Probably missing operator.").
Proof.
  unfold Rpn.evaluate_tokens.
  destruct (loop_returns ts []) as [[s ->]| ->]; [|right; left; reflexivity].
  destruct s as [|v [|v' s]]; cbn.
  - right; right; reflexivity.
  - left; eexists; reflexivity.
  - right; right; reflexivity.
Qed.

(** X8: [evaluate] is right, and it accepts nothing else: the tokens
    evaluate to [v] if and only if they are the reverse Polish writing
    of an expression tree whose value is [v]. *)
Theorem evaluate_tokens_ok_iff_postfix
  (ts : list (OperationElt f32)) (v : f32) :
  evaluate_tokens ts = Returns (Ok v)
  <-> exists e, ts = postfix e /\ v = value e.
Proof.
  split.
  - unfold Rpn.evaluate_tokens. intros H.
    destruct (loop ts []) as [[s|err]|msg] eqn:E; try discriminate H.
    destruct s as [|v0 [|v1 s]]; cbn in H; try discriminate H.
    injection H as ->.
    destruct (loop_ok_inv ts E) as (es & -> & Hs).
    destruct es as [|e [|e' es]]; cbn [map rev app] in Hs.
    + discriminate Hs.
    + injection Hs as ->. exists e. split; [|reflexivity].
      unfold unparse; cbn. now rewrite app_nil_r.
    + apply (f_equal (@List.length f32)) in Hs.
      rewrite !length_app in Hs; cbn in Hs. lia.
  - intros (e & -> & ->). unfold Rpn.evaluate_tokens.
    rewrite <- (app_nil_r (postfix e)), loop_postfix. reflexivity.
Qed.

(** X9: the two errors of the evaluation.  The error about remaining
    operands is returned exactly for the writings of no expression or of
    several expressions one after the other (so also for no token at
    all); the error about missing operands exactly for the lists of
    tokens that are not made of such writings. *)
Theorem evaluate_tokens_errors (ts : list (OperationElt f32)) :
  (evaluate_tokens ts
   = Returns
       (Err "Remaining untreated operands. Probably missing operator.")
   <-> exists es, ts = unparse es /\ List.length es <> 1%nat)
  /\ (evaluate_tokens ts
      = Returns (Err "Unsufficient operands before operator")
      <-> ~ exists es, ts = unparse es).
Proof.
  assert (Hok : forall es,
             loop (unparse es) [] = Returns (Ok (rev (map value es)))).
  { intros es. rewrite <- (app_nil_r (unparse es)), loop_unparse.
    now rewrite app_nil_r. }
  split; split.
  - unfold Rpn.evaluate_tokens. intros H.
    destruct (loop ts []) as [[s|err]|msg] eqn:E; try discriminate H.
    + destruct (loop_ok_inv ts E) as (es & -> & ->).
      exists es. split; [reflexivity|]. intros Hl.
      destruct es as [|e [|e' es]]; try discriminate Hl.
      cbn in H. discriminate H.
    + destruct (loop_returns ts []) as [[s Hs]|Hs];
        rewrite Hs in E; [discriminate E|].
      injection E as <-. discriminate H.
  - intros (es & -> & Hl). unfold Rpn.evaluate_tokens. rewrite Hok.
    unfold len. rewrite length_rev, length_map.
    destruct es as [|e [|e' es]]; try reflexivity. now elim Hl.
  - unfold Rpn.evaluate_tokens. intros H (es & ->).
    rewrite Hok in H.
    destruct (negb (len (rev (map value es)) =? 1)%nat);
      [discriminate H|].
    destruct (pop (rev (map value es))) as [[v s]|]; discriminate H.
  - intros Hn. unfold Rpn.evaluate_tokens.
    destruct (loop_returns ts []) as [[s Hs]| ->]; [|reflexivity].
    exfalso. apply Hn.
    destruct (loop_ok_inv ts Hs) as (es & -> & _). now exists es.
Qed.

End Evaluation.

Section Tokens.

Variable f32 : Type.
Variables add sub mul div rem : f32 -> f32 -> f32.
Variable parse : string -> option f32.
Variable split_whitespace : string -> list string.

Local Abbreviation element := (Rpn.element parse).
Local Abbreviation tokenizer := (Rpn.tokenizer parse split_whitespace).
Local Abbreviation evaluate :=
  (Rpn.evaluate add sub mul div rem parse split_whitespace).
Local Abbreviation evaluate_tokens :=
  (Rpn.evaluate_tokens add sub mul div rem).

Lemma element_unreadable (el : string) :
  unreadable parse el = true ->
  element el = Err ("Cannot parse operand " ++ dquote ++ el ++ dquote).
Proof.
  unfold unreadable, Rpn.element, operators; cbn [existsb].
  destruct (el =? "+")%string; [discriminate|].
  destruct (el =? "-")%string; [discriminate|].
  destruct (el =? "*")%string; [discriminate|].
  destruct (el =? "/")%string; [discriminate|].
  destruct (el =? "%")%string; [discriminate|].
  destruct (parse el); [discriminate | reflexivity].
Qed.

Lemma element_readable (el : string) :
  unreadable parse el = false -> exists t, element el = Ok t.
Proof.
  unfold unreadable, Rpn.element, operators; cbn [existsb].
  destruct (el =? "+")%string; [eexists; reflexivity|].
  destruct (el =? "-")%string; [eexists; reflexivity|].
  destruct (el =? "*")%string; [eexists; reflexivity|].
  destruct (el =? "/")%string; [eexists; reflexivity|].
  destruct (el =? "%")%string; [eexists; reflexivity|].
  destruct (parse el); [eexists; reflexivity | discriminate].
Qed.

Lemma collect_elements (ws : list string) :
  match find (unreadable parse) ws with
  | Some w =>
      collect (map element ws)
      = Err ("Cannot parse operand " ++ dquote ++ w ++ dquote)
  | None =>
      exists ts, collect (map element ws) = Ok ts
                 /\ List.length ts = List.length ws
  end.
Proof.
  induction ws as [|w ws IH]; cbn [find map collect].
  - exists []. split; reflexivity.
  - destruct (unreadable parse w) eqn:Hw.
    + now rewrite (element_unreadable w Hw).
    + destruct (element_readable w Hw) as [t ->].
      destruct (find (unreadable parse) ws) as [w'|].
      * now rewrite IH.
      * destruct IH as (ts & -> & Hl). exists (t :: ts).
        split; [reflexivity | simpl; now rewrite Hl].
Qed.

(** X7: no [expect] of [evaluate] ever panics, and there are four ways
    for an evaluation to end: a value, the error of a word that cannot
    be read, the error of an operator that finds fewer than two
    operands, the error of a stack that does not hold exactly one value
    at the end. *)
Theorem evaluate_never_panics (expr : string) :
  (exists v, evaluate expr = Returns (Ok v))
  \/ (exists w, In w (split_whitespace expr)
                /\ evaluate expr
                   = Returns (Err ("Cannot parse operand "
                                   ++ dquote ++ w ++ dquote)))
  \/ evaluate expr = Returns (Err "Unsufficient operands before operator")
  \/ evaluate expr
     = Returns
         (Err "Remaining untreated operands. Probably missing operator.").
Proof.
  unfold Rpn.evaluate, Rpn.tokenizer.
  pose proof (collect_elements (split_whitespace expr)) as H.
  destruct (find (unreadable parse) (split_whitespace expr)) as [w|] eqn:F.
  - right; left. exists w. rewrite H.
    split; [exact (proj1 (find_some _ _ F)) | reflexivity].
  - destruct H as (ts & -> & _).
    destruct (evaluate_tokens_returns add sub mul div rem ts)
      as [Hv|[He|He]]; auto.
Qed.

(** X10: a word that cannot be read comes before everything else.  When
    some word of the expression is neither an operator nor a number, the
    answer is the error that names the first such word, whatever the
    other words are, also when an operator in front of it lacks its
    operands.  When all words can be read there is one token for each
    word and the answer is that of the evaluation of the tokens. *)
Theorem evaluate_reports_first_unreadable_word (expr : string) :
  match find (unreadable parse) (split_whitespace expr) with
  | Some w =>
      evaluate expr
      = Returns (Err ("Cannot parse operand " ++ dquote ++ w ++ dquote))
  | None =>
      exists ts,
        tokenizer expr = Ok ts
        /\ List.length ts = List.length (split_whitespace expr)
        /\ evaluate expr = evaluate_tokens ts
  end.
Proof.
  unfold Rpn.evaluate, Rpn.tokenizer.
  pose proof (collect_elements (split_whitespace expr)) as H.
  destruct (find (unreadable parse) (split_whitespace expr)) as [w|].
  - now rewrite H.
  - destruct H as (ts & -> & Hl). exists ts. repeat split. exact Hl.
Qed.

End Tokens.

Section Shapes.

Variables A B : Type.
Variables addA subA mulA divA remA : A -> A -> A.
Variables addB subB mulB divB remB : B -> B -> B.

Local Abbreviation loopA := (Rpn.loop addA subA mulA divA remA).
Local Abbreviation loopB := (Rpn.loop addB subB mulB divB remB).

Lemma loop_shapes (tsA : list (OperationElt A)) :
  forall (tsB : list (OperationElt B)) (sA : list A) (sB : list B),
  map (@shape A) tsA = map (@shape B) tsB ->
  List.length sA = List.length sB ->
  match loopA tsA sA, loopB tsB sB with
  | Returns (Ok a), Returns (Ok b) => List.length a = List.length b
  | Returns (Err e), Returns (Err e') => e = e'
  | _, _ => False
  end.
Proof.
  induction tsA as [|t tsA IH]; intros tsB sA sB Hs Hl;
    destruct tsB as [|t' tsB]; try discriminate Hs.
  - exact Hl.
  - cbn [map] in Hs. injection Hs as Ht Hs.
    destruct t as [op|v], t' as [op'|v']; try discriminate Ht;
      cbn [Rpn.loop].
    + destruct sA as [|a [|a' sA]], sB as [|b [|b' sB]];
        try discriminate Hl; try reflexivity.
      cbn [len List.length Nat.ltb Nat.leb pop push].
      apply IH; [exact Hs | simpl in *; lia].
    + apply IH; [exact Hs | unfold push; simpl; lia].
Qed.

(** X11: whether an evaluation succeeds, and with which error it fails,
    is decided by the order of the operators and operands alone: two
    lists of tokens with the same operators at the same places end the
    same way, whatever the numbers are and whatever the five operations
    do with them.  No value of an operand (a zero divisor, say) is an
    error. *)
Theorem verdict_depends_on_shapes
  (tsA : list (OperationElt A)) (tsB : list (OperationElt B)) :
  map (@shape A) tsA = map (@shape B) tsB ->
  verdict (Rpn.evaluate_tokens addA subA mulA divA remA tsA)
  = verdict (Rpn.evaluate_tokens addB subB mulB divB remB tsB).
Proof.
  intros Hs. pose proof (loop_shapes tsA tsB [] [] Hs eq_refl) as H.
  unfold Rpn.evaluate_tokens.
  destruct (loopA tsA []) as [[a|e]|m], (loopB tsB []) as [[b|e']|m'];
    try contradiction.
  - destruct a as [|x [|x' a]], b as [|y [|y' b]];
      try discriminate H; reflexivity.
  - now subst.
Qed.

End Shapes.

Lemma verdict_depends_on_shapes_witness :
  verdict (Rpn.evaluate_tokens Z.add Z.sub Z.mul Z.quot Z.rem
             [EltOperand 1; EltOperand 0; EltOperator Division])
  = verdict (Rpn.evaluate_tokens Z.add Z.sub Z.mul Z.quot Z.rem
               [EltOperand 6; EltOperand 3; EltOperator Division]).
Proof.
  apply (@verdict_depends_on_shapes Z Z
           Z.add Z.sub Z.mul Z.quot Z.rem Z.add Z.sub Z.mul Z.quot Z.rem
           [EltOperand 1; EltOperand 0; EltOperator Division]
           [EltOperand 6; EltOperand 3; EltOperator Division]).
  reflexivity.
Defined.

(** The tests of the sample whose numbers are whole, on integers. *)
Example it_adds : Sample.evaluate "1 2 +" = Returns (Ok 3).
Proof. reflexivity. Qed.

Example it_allows_multiple_whitespaces :
  Sample.evaluate ("1  2 +" ++ String "009" "3 -") = Returns (Ok 0).
Proof. reflexivity. Qed.

Example it_fails_for_unsupported_characters :
  Sample.evaluate "1 2 t"
  = Returns (Err ("Cannot parse operand " ++ dquote ++ "t" ++ dquote)).
Proof. reflexivity. Qed.

Example it_fails_for_unsufficient_operands :
  Sample.evaluate "1 +"
  = Returns (Err "Unsufficient operands before operator").
Proof. reflexivity. Qed.

Example it_fails_for_unsufficient_operators :
  Sample.evaluate "1 2 3 +"
  = Returns
      (Err "Remaining untreated operands. Probably missing operator.").
Proof. reflexivity. Qed.

End RpnFacts.
